(** * Modular Firestore / Database binding layer of react-native-firebase

    A shallow embedding of [packages/firestore/lib/modular/index.js]
    ([doc], [collection], [updateDoc]) together with the parts of the
    query and database surface that the declarations and the end-to-end
    tests describe.

    Every modular entry point is a thin wrapper: it reshapes its arguments
    and performs exactly one method call on the wrapped compatibility
    object, returning the result of that call unchanged.  The embedding
    therefore represents the run of a wrapper as an [Action]: either the
    wrapper throws on its own, or it hands over to one [Call] on the
    wrapped object. *)

From Stdlib Require Import String Ascii List Bool Arith Lia PrimFloat.
From stdpp Require Import base list strings.
Import ListNotations.

Set Warnings "-register-all".

Local Open Scope string_scope.
Local Open Scope list_scope.

(** ** JavaScript values *)

(** The values a caller can pass for an [unknown] parameter.  Numbers are
    IEEE doubles, as in JavaScript.  Objects and functions are opaque and
    identified by a name; arrays carry their elements. *)
Inductive JsValue : Type :=
| JsUndefined
| JsNull
| JsBool (b : bool)
| JsNumber (n : float)
| JsString (s : string)
| JsObject (id : nat)
| JsFunction (id : nat)
| JsArray (elems : list JsValue).

(** [ToBoolean]: [undefined], [null], [false], [+0], [-0], [NaN] and the
    empty string are falsy, every other value is truthy. *)
Definition truthy (v : JsValue) : bool :=
  match v with
  | JsUndefined | JsNull => false
  | JsBool b => b
  | JsNumber n => negb (PrimFloat.eqb n 0%float || PrimFloat.is_nan n)
  | JsString s => negb (String.eqb s "")
  | JsObject _ | JsFunction _ | JsArray _ => true
  end.

Definition Array_isArray (v : JsValue) : bool :=
  match v with
  | JsArray _ => true
  | _ => false
  end.

Definition isUndefined (v : JsValue) : bool :=
  match v with
  | JsUndefined => true
  | _ => false
  end.

Definition isFunction (v : JsValue) : bool :=
  match v with
  | JsFunction _ => true
  | _ => false
  end.

(** A parameter documented as [string?]: a string, or [null]/[undefined]
    when the caller leaves it out. *)
Inductive MaybeString : Type :=
| Undefined
| Null
| Str (s : string).

(** [ToString] as performed by [path + '/']. *)
Definition toString (p : MaybeString) : string :=
  match p with
  | Undefined => "undefined"
  | Null => "null"
  | Str s => s
  end.

(** ** Errors, calls on the wrapped object, and actions *)

Inductive JsError : Type :=
| TypeError (message : string)
| InvalidArgument (message : string)
| Error (message : string).

Definition message_of (e : JsError) : string :=
  match e with
  | TypeError m | InvalidArgument m | Error m => m
  end.

(** A wrapped compatibility object (a Firestore instance, a collection or
    document reference, an OnDisconnect handle), known by its identity
    only: what it does with a call is the native SDK's business. *)
Definition Wrapped : Type := nat.

(** The single method call a wrapper performs on a wrapped object: the
    receiver, the method, and the argument list it passes. *)
Inductive Call : Type :=
| parent_doc (parent : Wrapped) (path : MaybeString)
| parent_collection (parent : Wrapped) (path : MaybeString)
| reference_update (reference : Wrapped) (args : list JsValue)
| native_onDisconnectRemove (reference : Wrapped) (onComplete : JsValue).

Inductive Action : Type :=
| Throws (e : JsError)
| Delegates (c : Call).

(** The calls that reach the wrapped object during an action. *)
Definition calls_made (a : Action) : list Call :=
  match a with
  | Throws _ => []
  | Delegates c => [c]
  end.

(** ** Path resolver *)

Definition is_slash (c : ascii) : bool := Ascii.eqb c "/"%char.

(** One attempt of the pattern [/^\/|\/$/] at offset [i] of the subject,
    where [suffix] is the subject from offset [i] on.  The first
    alternative needs the start of the subject, the second one needs the
    slash to be the last character.  A match is always one character
    long. *)
Definition matches_at (i : nat) (suffix : string) : bool :=
  match suffix with
  | EmptyString => false
  | String c rest =>
      is_slash c && (Nat.eqb i 0 || match rest with EmptyString => true | _ => false end)
  end.

(** [subject.replace(/^\/|\/$/g, '')] from offset [i] on: with the [g]
    flag the subject is scanned left to right, every match is dropped and
    every other character is copied. *)
Fixpoint replace_from (i : nat) (suffix : string) : string :=
  match suffix with
  | EmptyString => EmptyString
  | String c rest =>
      if matches_at i suffix then replace_from (S i) rest
      else String c (replace_from (S i) rest)
  end.

(** [e => e.replace(/^\/|\/$/g, '')] *)
Definition trimSlashes (e : string) : string := replace_from 0 e.

(** The callback of [pathSegments.map]: [e.replace] exists on strings
    only, on [null] or [undefined] the property access throws. *)
Definition trim_segment (e : MaybeString) : JsError + string :=
  match e with
  | Str s => inr (trimSlashes s)
  | Null => inl (TypeError "Cannot read properties of null (reading 'replace')")
  | Undefined => inl (TypeError "Cannot read properties of undefined (reading 'replace')")
  end.

(** [pathSegments.map(e => e.replace(...))]: the first throwing element
    aborts the map. *)
Fixpoint map_segments (pathSegments : list MaybeString) : JsError + list string :=
  match pathSegments with
  | [] => inr []
  | e :: more =>
      match trim_segment e with
      | inl err => inl err
      | inr s =>
          match map_segments more with
          | inl err => inl err
          | inr ss => inr (s :: ss)
          end
      end
  end.

(** The path handed to the parent: rewritten only when there is at least
    one extra segment (an array is truthy, so the test is on its
    length). *)
Definition join_path (path : MaybeString) (pathSegments : list MaybeString)
  : JsError + MaybeString :=
  if negb (Nat.eqb (List.length pathSegments) 0) then
    match map_segments pathSegments with
    | inl err => inl err
    | inr ss => inr (Str (toString path +:+ "/" +:+ String.concat "/" ss))
    end
  else inr path.

(** [doc(parent, path, ...pathSegments)] *)
Definition doc (parent : Wrapped) (path : MaybeString) (pathSegments : list MaybeString)
  : Action :=
  match join_path path pathSegments with
  | inl err => Throws err
  | inr p => Delegates (parent_doc parent p)
  end.

(** [collection(parent, path, ...pathSegments)] *)
Definition collection (parent : Wrapped) (path : MaybeString)
  (pathSegments : list MaybeString) : Action :=
  match join_path path pathSegments with
  | inl err => Throws err
  | inr p => Delegates (parent_collection parent p)
  end.

(** *** The path composition as the specification words it

    Every supplied fragment, the base path included, loses one leading and
    one trailing slash, and the fragments are joined with single slashes.
    Kept apart from [join_path] to compare the two. *)

Definition strip_leading (s : string) : string :=
  match s with
  | String c rest => if is_slash c then rest else s
  | EmptyString => EmptyString
  end.

Fixpoint strip_trailing (s : string) : string :=
  match s with
  | EmptyString => EmptyString
  | String c EmptyString => if is_slash c then EmptyString else s
  | String c rest => String c (strip_trailing rest)
  end.

Definition spec_trim (s : string) : string := strip_trailing (strip_leading s).

Definition spec_joined_path (path : string) (pathSegments : list string) : string :=
  String.concat "/" (List.map spec_trim (path :: pathSegments)).

Fixpoint slash_free (s : string) : bool :=
  match s with
  | EmptyString => true
  | String c rest => negb (is_slash c) && slash_free rest
  end.

(** ** [updateDoc] *)

(** The three [return] statements of [updateDoc], in source order. *)
Inductive UpdateDocReturn : Type :=
| return_update_field_only
| return_update_field_value
| return_update_spread.

(** Which [return] a call reaches.  The rest parameter
    [moreFieldsAndValues] is bound to a fresh array holding the trailing
    arguments, and the two guards are evaluated on that array. *)
Definition updateDoc_return (value : JsValue) (trailing : list JsValue) : UpdateDocReturn :=
  let moreFieldsAndValues := JsArray trailing in
  if negb (truthy value) then return_update_field_only
  else if negb (truthy moreFieldsAndValues) || negb (Array_isArray moreFieldsAndValues)
       then return_update_field_value
       else return_update_spread.

(** [updateDoc(reference, fieldOrUpdateData, value, ...moreFieldsAndValues)] *)
Definition updateDoc (reference : Wrapped) (fieldOrUpdateData value : JsValue)
  (moreFieldsAndValues : list JsValue) : Action :=
  match updateDoc_return value moreFieldsAndValues with
  | return_update_field_only =>
      Delegates (reference_update reference [fieldOrUpdateData])
  | return_update_field_value =>
      Delegates (reference_update reference [fieldOrUpdateData; value])
  | return_update_spread =>
      Delegates (reference_update reference
                   (fieldOrUpdateData :: value :: moreFieldsAndValues))
  end.

(** A call [updateDoc(reference, ...args)] binds the formal parameters
    from the argument list: a missing argument is [undefined], the rest
    parameter takes whatever follows the second one. *)
Definition call_updateDoc (reference : Wrapped) (args : list JsValue) : Action :=
  updateDoc reference (List.nth 0 args JsUndefined) (List.nth 1 args JsUndefined)
    (List.skipn 2 args).

(** ** Query constraints ([query.d.ts]) *)

(** [QueryConstraintType]: the eight discriminants. *)
Inductive QueryConstraintType : Type :=
| type_where
| type_orderBy
| type_limit
| type_limitToLast
| type_startAt
| type_startAfter
| type_endAt
| type_endBefore.

(** The string literal behind each discriminant. *)
Definition discriminant (t : QueryConstraintType) : string :=
  match t with
  | type_where => "where"
  | type_orderBy => "orderBy"
  | type_limit => "limit"
  | type_limitToLast => "limitToLast"
  | type_startAt => "startAt"
  | type_startAfter => "startAfter"
  | type_endAt => "endAt"
  | type_endBefore => "endBefore"
  end.

(** The five declared constraint classes. *)
Inductive ConstraintClass : Type :=
| QueryOrderByConstraint
| QueryLimitConstraint
| QueryStartAtConstraint
| QueryEndAtConstraint
| QueryFieldFilterConstraint.


(** A constraint value: its class, its [readonly type] tag, and the
    arguments it was built from. *)
Record QueryConstraint : Type := mkConstraint {
  constraint_class : ConstraintClass;
  type : QueryConstraintType;
  _args : list JsValue
}.

(** Modelled from the spec: the constructor functions are implemented in
    [query.js], which is missing; [query.d.ts] declares them with their
    result classes.  Each returns a constraint of the declared class,
    tagged with the discriminant that bears the constructor's name and
    holding the arguments of the call. *)
Definition where_ (fieldPath opStr value : JsValue) : QueryConstraint :=
  mkConstraint QueryFieldFilterConstraint type_where [fieldPath; opStr; value].

(** Modelled from the spec: missing [query.js]; [directionStr] defaults
    to ['asc'] as declared. *)
Definition orderBy (fieldPath directionStr : JsValue) : QueryConstraint :=
  mkConstraint QueryOrderByConstraint type_orderBy
    [fieldPath; if isUndefined directionStr then JsString "asc" else directionStr].

(** Modelled from the spec: missing [query.js]. *)
Definition limit (n : JsValue) : QueryConstraint :=
  mkConstraint QueryLimitConstraint type_limit [n].





(** ** Constraint applier *)

(** A query is an opaque handle into the wrapped SDK. *)
Definition Query : Type := nat.

Section ConstraintApplier.

(** What the wrapped SDK keeps behind a query handle, and its chained
    method [query[type](...args)] as a function of that data; [None]
    when the SDK throws because the constraint cannot be combined. *)
Variable QueryData : Type.
Variable sdk_method : QueryConstraintType -> list JsValue -> QueryData -> option QueryData.

(** The SDK's store of query values, and the record of every [_apply]
    invocation: the constraint and the query it was applied to. *)
Record World : Type := mkWorld {
  heap : list QueryData;
  applied : list (QueryConstraint * Query)
}.

(** Modelled from the spec: [_apply] is implemented in the missing
    [query.js]; [query.d.ts] declares it as returning a copy of the
    query with the constraint applied.  The copy is a fresh handle; no
    existing entry of the store is written. *)
Definition _apply (c : QueryConstraint) (q : Query) (w : World) : option (Query * World) :=
  match heap w !! q with
  | None => None
  | Some d =>
      match sdk_method (type c) (_args c) d with
      | None => None
      | Some d' =>
          Some (List.length (heap w),
                mkWorld (heap w ++ [d']) (applied w ++ [(c, q)]))
      end
  end.

(** Modelled from the spec: [query] is implemented in the missing
    [query.js].  It walks the constraint list from the left, replacing
    the current query by the result of the constraint's [_apply]. *)
Fixpoint query (q : Query) (queryConstraints : list QueryConstraint) (w : World)
  : option (Query * World) :=
  match queryConstraints with
  | [] => Some (q, w)
  | c :: more =>
      match _apply c q w with
      | None => None
      | Some (q', w') => query q' more w'
      end
  end.

(** The nested application [cN._apply(... c1._apply(baseQuery) ...)]
    written as a left fold, threading the store. *)
Definition apply_fold (q : Query) (queryConstraints : list QueryConstraint) (w : World)
  : option (Query * World) :=
  List.fold_left
    (fun acc c => match acc with
                  | Some (q', w') => _apply c q' w'
                  | None => None
                  end)
    queryConstraints (Some (q, w)).

(** What the SDK computes along a chain of constraints, on the data
    alone. *)
Fixpoint sdk_chain (d : QueryData) (queryConstraints : list QueryConstraint)
  : option QueryData :=
  match queryConstraints with
  | [] => Some d
  | c :: more =>
      match sdk_method (type c) (_args c) d with
      | None => None
      | Some d' => sdk_chain d' more
      end
  end.

End ConstraintApplier.

Arguments mkWorld {QueryData} _ _.
Arguments _apply {QueryData} sdk_method c q w.
Arguments query {QueryData} sdk_method q queryConstraints w.
Arguments apply_fold {QueryData} sdk_method q queryConstraints w.
Arguments sdk_chain {QueryData} sdk_method d queryConstraints.
Arguments heap {QueryData} _.
Arguments applied {QueryData} _.

(** ** Realtime Database surface *)

(** [haystack.includes(needle)] *)
Fixpoint includes (needle haystack : string) : bool :=
  String.prefix needle haystack ||
  match haystack with
  | EmptyString => false
  | String _ rest => includes needle rest
  end.

Definition onComplete_message : string := "'onComplete' must be a function if provided".

(** Modelled from the spec: [DatabaseOnDisconnect.remove] is not among the
    sources, only its end-to-end test is.  An [onComplete] that is
    provided (not [undefined]) and is not a function is an argument
    error raised before anything is handed to the native module. *)
Definition onDisconnect_remove (reference : Wrapped) (onComplete : JsValue) : Action :=
  if negb (isUndefined onComplete) && negb (isFunction onComplete)
  then Throws (InvalidArgument onComplete_message)
  else Delegates (native_onDisconnectRemove reference onComplete).

(** Modelled from the spec: the modular [onDisconnect(ref)] is a
    pass-through to [ref.onDisconnect()]. *)
Definition modular_onDisconnect_remove (reference : Wrapped) (onComplete : JsValue) : Action :=
  onDisconnect_remove reference onComplete.

(** [remove(...args)]: an omitted [onComplete] is [undefined]. *)
Definition call_remove (reference : Wrapped) (args : list JsValue) : Action :=
  onDisconnect_remove reference (List.nth 0 args JsUndefined).

(** The body of the test "throws if onComplete is not a function":
    [true] when the test resolves, [false] when it rejects. *)
Definition test_throws_if_onComplete_is_not_a_function
  (remove : JsValue -> Action) : bool :=
  match remove (JsString "foo") with
  | Throws error => includes onComplete_message (message_of error)
  | Delegates _ => false
  end.

(** [path.split('/')] *)
Fixpoint split_slash (path : string) : list string :=
  match path with
  | EmptyString => [EmptyString]
  | String c rest =>
      if is_slash c then EmptyString :: split_slash rest
      else match split_slash rest with
           | [] => [String c EmptyString]
           | seg :: segs => String c seg :: segs
           end
  end.

(** The segments of a path: its non-empty pieces between slashes. *)
Definition path_segments (path : string) : list string :=
  List.filter (fun seg => negb (String.eqb seg "")) (split_slash path).

(** A database reference, known by the segments of its path; the root has
    none. *)
Record DatabaseReference : Type := mkReference {
  ref_segments : list string
}.

(** Modelled from the spec: [firebase.database().ref(path)] is not among
    the sources; without a path it is the root. *)
Definition database_ref (path : option string) : DatabaseReference :=
  match path with
  | None => mkReference []
  | Some p => mkReference (path_segments p)
  end.

(** Modelled from the spec: the modular [ref(db, path)] is a pass-through
    to the namespaced one. *)
Definition modular_ref (path : option string) : DatabaseReference :=
  database_ref path.

(** Modelled from the spec: [ref.key] is the last segment of the path,
    [null] at the root. *)
Definition key (r : DatabaseReference) : option string :=
  List.last (List.map Some (ref_segments r)) None.

(** Modelled from the spec: [ref.parent] is not among the sources, only
    its end-to-end test is.  It is [null] at the root and for a path of a
    single segment, and the reference one segment up otherwise. *)
Definition parent (r : DatabaseReference) : option DatabaseReference :=
  match ref_segments r with
  | [] => None
  | [_] => None
  | segs => Some (mkReference (List.removelast segs))
  end.

(** ** [getFirestore] *)

(** The call a wrapper makes on the [firebase] namespace object:
    [firebase.firestore(...args)]. *)
Inductive FirebaseCall : Type :=
| firebase_firestore (args : list JsValue).

(** [getFirestore(app)] *)
Definition getFirestore (app : JsValue) : FirebaseCall :=
  if truthy app then firebase_firestore [app]
  else firebase_firestore [].

(** ** Vocabulary of the further properties *)

(** Whether a segment is a string, the only kind [e.replace] accepts. *)
Definition is_string (e : MaybeString) : bool :=
  match e with
  | Str _ => true
  | Undefined | Null => false
  end.

Definition starts_with_slash (s : string) : bool :=
  match s with
  | EmptyString => false
  | String c _ => is_slash c
  end.

Fixpoint ends_with_slash (s : string) : bool :=
  match s with
  | EmptyString => false
  | String c EmptyString => is_slash c
  | String _ rest => ends_with_slash rest
  end.

(** ** Fixtures for the examples *)

(** A stand-in for the wrapped SDK, for running examples: a query is the
    list of discriminants chained onto it, and a second [limit] is
    refused. *)
Definition recording_sdk (t : QueryConstraintType) (args : list JsValue) (d : list string)
  : option (list string) :=
  if String.eqb (discriminant t) "limit" && existsb (String.eqb "limit") d
  then None
  else Some (d ++ [discriminant t]).

(** The constraints of [query(base, where('age', '>', 18), orderBy('age'), limit(10))]. *)
Definition age_query : list QueryConstraint :=
  [ where_ (JsString "age") (JsString ">") (JsNumber 18%float);
    orderBy (JsString "age") JsUndefined;
    limit (JsNumber 10%float) ].

(** * Properties *)

(** ** Path resolver *)

Example doc_abc :
  doc 7 (Str "a") [Str "b"; Str "c"] = Delegates (parent_doc 7 (Str "a/b/c")).
Proof. reflexivity. Qed.

Example doc_slashes :
  doc 7 (Str "/a/") [Str "/b/"; Str "//c/d//"]
  = Delegates (parent_doc 7 (Str "/a//b//c/d/")).
Proof. reflexivity. Qed.

Example doc_null_segment :
  doc 7 (Str "a") [Str "b"; Null]
  = Throws (TypeError "Cannot read properties of null (reading 'replace')").
Proof. reflexivity. Qed.

Example collection_missing_path :
  collection 7 Undefined [Str "b"] = Delegates (parent_collection 7 (Str "undefined/b")).
Proof. reflexivity. Qed.

Example trim_only_slash : trimSlashes "/" = "".
Proof. reflexivity. Qed.

Example trim_triple_slash : trimSlashes "///" = "/".
Proof. reflexivity. Qed.

(** Past offset 0 only the second alternative of the pattern can match:
    the scan removes a final slash and nothing else. *)
Lemma replace_from_succ (i : nat) (s : string) :
  replace_from (S i) s = strip_trailing s.
Proof.
  revert i; induction s as [|c rest IH]; intros i; [reflexivity|].
  destruct rest as [|c' rest'].
  - cbn. destruct (is_slash c); reflexivity.
  - change (replace_from (S i) (String c (String c' rest')))
      with (if is_slash c && false
            then replace_from (S (S i)) (String c' rest')
            else String c (replace_from (S (S i)) (String c' rest'))).
    rewrite andb_false_r, IH. reflexivity.
Qed.

(** The replacement drops one leading slash and one trailing slash, where
    present, and keeps every other character. *)
Lemma trimSlashes_spec_trim (s : string) : trimSlashes s = spec_trim s.
Proof.
  destruct s as [|c rest]; [reflexivity|].
  unfold trimSlashes, spec_trim.
  change (replace_from 0 (String c rest))
    with (if is_slash c && true
          then replace_from 1 rest else String c (replace_from 1 rest)).
  rewrite andb_true_r, !replace_from_succ.
  cbn [strip_leading].
  destruct (is_slash c) eqn:Hc; [reflexivity|].
  destruct rest as [|c' rest']; cbn; rewrite ?Hc; reflexivity.
Qed.

Lemma strip_trailing_cons (c c' : ascii) (rest : string) :
  strip_trailing (String c (String c' rest)) = String c (strip_trailing (String c' rest)).
Proof. reflexivity. Qed.

Lemma strip_trailing_slash_free (s : string) :
  slash_free s = true -> strip_trailing s = s.
Proof.
  induction s as [|c rest IH]; [reflexivity|].
  cbn [slash_free]. intros [Hc Hrest]%andb_true_iff.
  apply negb_true_iff in Hc.
  destruct rest as [|c' rest'].
  - cbn [strip_trailing]. rewrite Hc. reflexivity.
  - rewrite strip_trailing_cons, (IH Hrest). reflexivity.
Qed.

Lemma trimSlashes_slash_free (s : string) :
  slash_free s = true -> trimSlashes s = s.
Proof.
  intros H. rewrite trimSlashes_spec_trim. unfold spec_trim.
  destruct s as [|c rest]; [reflexivity|].
  cbn [strip_leading].
  pose proof H as H'. cbn [slash_free] in H'.
  apply andb_true_iff in H' as [Hc _]. apply negb_true_iff in Hc.
  rewrite Hc. apply strip_trailing_slash_free, H.
Qed.

Lemma strip_trailing_snoc (m : string) : strip_trailing (m +:+ "/") = m.
Proof.
  induction m as [|c rest IH]; [reflexivity|].
  change (String c rest +:+ "/") with (String c (rest +:+ "/")).
  destruct rest as [|c' rest'].
  - reflexivity.
  - change (String c' rest' +:+ "/") with (String c' (rest' +:+ "/")) in *.
    rewrite strip_trailing_cons, IH. reflexivity.
Qed.

(** A segment wrapped in slashes loses exactly the two outer ones,
    whatever it has inside. *)
Lemma trimSlashes_wrapped (m : string) : trimSlashes ("/" +:+ m +:+ "/") = m.
Proof.
  rewrite trimSlashes_spec_trim. unfold spec_trim.
  change ("/" +:+ m +:+ "/") with (String "/"%char (m +:+ "/")).
  cbn [strip_leading]. change (is_slash "/"%char) with true. cbn iota.
  apply strip_trailing_snoc.
Qed.

Lemma map_segments_strings (segs : list string) :
  map_segments (List.map Str segs) = inr (List.map trimSlashes segs).
Proof.
  induction segs as [|s segs IH]; [reflexivity|].
  cbn [List.map map_segments trim_segment]. rewrite IH. reflexivity.
Qed.

Lemma join_path_strings (path : MaybeString) (segs : list string) :
  segs <> [] ->
  join_path path (List.map Str segs)
  = inr (Str (toString path +:+ "/" +:+ String.concat "/" (List.map trimSlashes segs))).
Proof.
  intros Hne. unfold join_path.
  rewrite map_segments_strings.
  destruct segs as [|s segs]; [contradiction|]. reflexivity.
Qed.

Lemma map_trimSlashes_slash_free (segs : list string) :
  forallb slash_free segs = true -> List.map trimSlashes segs = segs.
Proof.
  induction segs as [|s segs IH]; [reflexivity|].
  cbn [forallb List.map]. intros [Hs Hsegs]%andb_true_iff.
  rewrite (trimSlashes_slash_free s Hs), (IH Hsegs). reflexivity.
Qed.

(** [doc] and [collection] raise nothing but what [e.replace] raises. *)
Lemma join_path_error (path : MaybeString) (segs : list MaybeString) (err : JsError) :
  join_path path segs = inl err -> exists m, err = TypeError m.
Proof.
  unfold join_path. destruct (negb _); [|discriminate].
  destruct (map_segments segs) as [e|ss] eqn:Hmap; [|discriminate].
  intros [= <-]. clear path.
  revert e Hmap. induction segs as [|s segs IH]; intros e; [discriminate|].
  cbn [map_segments].
  destruct s; cbn [trim_segment].
  - intros [= <-]. eauto.
  - intros [= <-]. eauto.
  - destruct (map_segments segs) as [e'|ss'] eqn:Hrec; [|discriminate].
    intros [= <-]. apply (IH e' eq_refl).
Qed.

(** C1, as stated, fails: the base path is not trimmed.  For
    [doc(parent, '/a/', 'b')] the path handed to [parent.doc] is
    ['/a//b'], whereas trimming every fragment and joining with single
    slashes gives ['a/b']. *)
Lemma doc_base_path_not_trimmed :
  doc 7 (Str "/a/") [Str "b"] = Delegates (parent_doc 7 (Str "/a//b"))
  /\ spec_joined_path "/a/" ["b"] = "a/b"
  /\ doc 7 (Str "/a/") [Str "b"] <> Delegates (parent_doc 7 (Str (spec_joined_path "/a/" ["b"])))
  /\ collection 7 (Str "/a/") [Str "b"]
     <> Delegates (parent_collection 7 (Str (spec_joined_path "/a/" ["b"]))).
Proof. repeat split; try reflexivity; discriminate. Qed.

(** C1 (amended): for every call of [doc] or [collection] with at least
    one extra segment, every extra segment has one leading and one
    trailing slash stripped where present, internal slashes are kept, the
    base path is taken as it is, and [parent.doc] / [parent.collection]
    receives the base path, a slash, and the trimmed segments joined by
    single slashes in call order. *)
Theorem doc_collection_join_trimmed_segments
  (parent : Wrapped) (path : MaybeString) (segs : list string) :
  segs <> [] ->
  doc parent path (List.map Str segs)
  = Delegates (parent_doc parent
      (Str (toString path +:+ "/" +:+ String.concat "/" (List.map trimSlashes segs))))
  /\ collection parent path (List.map Str segs)
     = Delegates (parent_collection parent
         (Str (toString path +:+ "/" +:+ String.concat "/" (List.map trimSlashes segs))))
  /\ (forall e, trimSlashes e = strip_trailing (strip_leading e))
  /\ (forall m, trimSlashes ("/" +:+ m +:+ "/") = m).
Proof.
  intros Hne. unfold doc, collection.
  rewrite (join_path_strings path segs Hne).
  repeat split.
  - apply trimSlashes_spec_trim.
  - apply trimSlashes_wrapped.
Qed.

Lemma doc_collection_join_trimmed_segments_witness :
  ["/b/"; "c/d"] <> []
  /\ doc 7 (Str "/a/") [Str "/b/"; Str "c/d"]
     = Delegates (parent_doc 7 (Str "/a//b/c/d")).
Proof.
  assert (Hne : ["/b/"; "c/d"] <> []) by discriminate.
  split; [exact Hne|].
  exact (proj1 (doc_collection_join_trimmed_segments 7 (Str "/a/") ["/b/"; "c/d"] Hne)).
Defined.

(** C2, as stated, fails: [doc(parent, '')] composes the empty path and
    still calls [parent.doc('')]; it raises nothing. *)
Lemma doc_empty_path_is_delegated :
  spec_joined_path "" [] = ""
  /\ calls_made (doc 7 (Str "") []) = [parent_doc 7 (Str "")]
  /\ calls_made (collection 7 (Str "") []) = [parent_collection 7 (Str "")]
  /\ ~ (exists m, doc 7 (Str "") [] = Throws (InvalidArgument m)).
Proof.
  repeat split. intros [m Hm]. discriminate Hm.
Qed.

(** [doc] and [collection] have no argument check of their own. *)
Lemma doc_collection_never_invalid_argument
  (parent : Wrapped) (path : MaybeString) (segs : list MaybeString) (m : string) :
  doc parent path segs <> Throws (InvalidArgument m)
  /\ collection parent path segs <> Throws (InvalidArgument m).
Proof.
  unfold doc, collection.
  destruct (join_path path segs) as [err|p] eqn:Hj.
  - destruct (join_path_error _ _ _ Hj) as [m' ->]. split; discriminate.
  - split; discriminate.
Qed.

(** C2 (amended): [doc] and [collection] do not check the composed path.
    Whenever the path they compose is empty, which happens only for an
    empty base path without extra segments, they raise no error and call
    [parent.doc] / [parent.collection] once, with the empty path. *)
Theorem doc_collection_delegate_empty_path
  (parent : Wrapped) (path : MaybeString) (segs : list MaybeString) :
  join_path path segs = inr (Str "") ->
  path = Str "" /\ segs = []
  /\ calls_made (doc parent path segs) = [parent_doc parent (Str "")]
  /\ calls_made (collection parent path segs) = [parent_collection parent (Str "")].
Proof.
  intros Hj.
  assert (Hshape : path = Str "" /\ segs = []).
  { revert Hj. unfold join_path.
    destruct segs as [|s segs]; cbn [List.length Nat.eqb negb].
    - intros [= ->]. split; reflexivity.
    - destruct (map_segments (s :: segs)) as [e|ss]; [discriminate|].
      intros [= Hempty]. exfalso.
      destruct (toString path); discriminate Hempty. }
  destruct Hshape as [-> ->]. repeat split.
Qed.

Lemma doc_collection_delegate_empty_path_witness :
  join_path (Str "") [] = inr (Str "")
  /\ calls_made (doc 7 (Str "") []) = [parent_doc 7 (Str "")].
Proof.
  assert (Hj : join_path (Str "") [] = inr (Str "")) by reflexivity.
  split; [exact Hj|].
  exact (proj1 (proj2 (proj2 (doc_collection_delegate_empty_path 7 (Str "") [] Hj)))).
Defined.

(** C4: [doc(parent, 'a', 'b', 'c')] hands [parent.doc] the same path as
    [doc(parent, 'a/b/c')]; in general, passing slash-free segments one
    per argument and passing them joined by single slashes as the base
    path both call [parent.doc] with that joined path. *)
Theorem doc_split_segments_same_path
  (parent : Wrapped) (first : string) (rest : list string) :
  forallb slash_free (first :: rest) = true ->
  doc parent (Str first) (List.map Str rest)
  = Delegates (parent_doc parent (Str (String.concat "/" (first :: rest))))
  /\ doc parent (Str (String.concat "/" (first :: rest))) []
     = Delegates (parent_doc parent (Str (String.concat "/" (first :: rest)))).
Proof.
  cbn [forallb]. intros [_ Hrest]%andb_true_iff.
  split; [|reflexivity].
  destruct rest as [|s rest]; [reflexivity|].
  unfold doc.
  rewrite join_path_strings by discriminate.
  rewrite (map_trimSlashes_slash_free _ Hrest).
  reflexivity.
Qed.

Lemma doc_split_segments_same_path_witness :
  forallb slash_free ["a"; "b"; "c"] = true
  /\ doc 7 (Str "a") [Str "b"; Str "c"] = Delegates (parent_doc 7 (Str "a/b/c"))
  /\ doc 7 (Str "a/b/c") [] = Delegates (parent_doc 7 (Str "a/b/c")).
Proof.
  assert (H : forallb slash_free ["a"; "b"; "c"] = true) by reflexivity.
  split; [exact H|].
  exact (doc_split_segments_same_path 7 "a" ["b"; "c"] H).
Defined.

(** C6: without extra segments [doc] and [collection] pass the base path
    to [parent.doc] / [parent.collection] untouched, whatever it is. *)
Theorem doc_collection_no_segments_unmodified (parent : Wrapped) (path : MaybeString) :
  doc parent path [] = Delegates (parent_doc parent path)
  /\ collection parent path [] = Delegates (parent_collection parent path).
Proof. split; reflexivity. Qed.

(** ** [updateDoc] *)

Example updateDoc_zero :
  updateDoc 3 (JsString "count") (JsNumber 0%float) []
  = Delegates (reference_update 3 [JsString "count"]).
Proof. reflexivity. Qed.

Example updateDoc_false :
  updateDoc 3 (JsString "done") (JsBool false) [JsString "n"; JsNumber 2%float]
  = Delegates (reference_update 3 [JsString "done"]).
Proof. reflexivity. Qed.

Example updateDoc_empty_string :
  updateDoc 3 (JsString "name") (JsString "") []
  = Delegates (reference_update 3 [JsString "name"]).
Proof. reflexivity. Qed.

Example updateDoc_pairs :
  call_updateDoc 3 [JsString "a"; JsNumber 1%float; JsString "b"; JsNull]
  = Delegates (reference_update 3 [JsString "a"; JsNumber 1%float; JsString "b"; JsNull]).
Proof. reflexivity. Qed.

(** C3: for every falsy [value] and whatever follows it, [updateDoc]
    calls [reference.update] with [fieldOrUpdateData] alone, the very call
    it makes when [value] is left out. *)
Theorem updateDoc_falsy_value_single_argument
  (reference : Wrapped) (fieldOrUpdateData value : JsValue) (more : list JsValue) :
  truthy value = false ->
  updateDoc reference fieldOrUpdateData value more
  = Delegates (reference_update reference [fieldOrUpdateData])
  /\ updateDoc reference fieldOrUpdateData value more
     = call_updateDoc reference [fieldOrUpdateData].
Proof.
  intros Hfalsy. unfold call_updateDoc, updateDoc, updateDoc_return.
  rewrite Hfalsy. split; reflexivity.
Qed.

Lemma updateDoc_falsy_value_single_argument_witness :
  truthy (JsNumber 0%float) = false
  /\ updateDoc 3 (JsString "count") (JsNumber 0%float) [JsString "n"; JsBool true]
     = Delegates (reference_update 3 [JsString "count"]).
Proof.
  assert (H : truthy (JsNumber 0%float) = false) by reflexivity.
  split; [exact H|].
  exact (proj1 (updateDoc_falsy_value_single_argument
                  3 (JsString "count") (JsNumber 0%float) [JsString "n"; JsBool true] H)).
Defined.

(** C10: the [return] guarded by
    [!moreFieldsAndValues || !Array.isArray(moreFieldsAndValues)] is never
    reached, because a rest parameter is always an array: with a truthy
    [value], [updateDoc] takes the last [return] and calls
    [reference.update(fieldOrUpdateData, value, ...moreFieldsAndValues)],
    the spread being possibly empty. *)
Theorem updateDoc_two_argument_return_unreachable
  (reference : Wrapped) (fieldOrUpdateData value : JsValue) (more : list JsValue) :
  truthy value = true ->
  updateDoc_return value more = return_update_spread
  /\ updateDoc reference fieldOrUpdateData value more
     = Delegates (reference_update reference (fieldOrUpdateData :: value :: more))
  /\ (forall v trailing, updateDoc_return v trailing <> return_update_field_value).
Proof.
  intros Htruthy. unfold updateDoc, updateDoc_return.
  rewrite Htruthy. repeat split.
  intros v trailing. destruct (truthy v); discriminate.
Qed.

Lemma updateDoc_two_argument_return_unreachable_witness :
  truthy (JsString "x") = true
  /\ updateDoc_return (JsString "x") [] = return_update_spread.
Proof.
  assert (H : truthy (JsString "x") = true) by reflexivity.
  split; [exact H|].
  exact (proj1 (updateDoc_two_argument_return_unreachable
                  3 (JsString "f") (JsString "x") [] H)).
Defined.

(** ** Constraint builder and applier *)

Example orderBy_default_direction :
  _args (orderBy (JsString "age") JsUndefined) = [JsString "age"; JsString "asc"].
Proof. reflexivity. Qed.

Section ConstraintApplierFacts.

Context {QueryData : Type}.
Variable sdk_method : QueryConstraintType -> list JsValue -> QueryData -> option QueryData.

Lemma apply_fold_none (cs : list QueryConstraint) :
  List.fold_left
    (fun acc c => match acc with
                  | Some (q', w') => _apply sdk_method c q' w'
                  | None => None
                  end) cs None = None.
Proof. induction cs as [|c cs IH]; [reflexivity|]. cbn. exact IH. Qed.

(** The loop of [query] is the left fold of [_apply]. *)
Lemma query_apply_fold (cs : list QueryConstraint) :
  forall (base : Query) (w : World QueryData), query sdk_method base cs w = apply_fold sdk_method base cs w.
Proof.
  unfold apply_fold.
  induction cs as [|c cs IH]; intros base w; [reflexivity|].
  cbn [query List.fold_left].
  destruct (_apply sdk_method c base w) as [[q1 w1]|].
  - apply IH.
  - symmetry. apply apply_fold_none.
Qed.

(** One [_apply]: a fresh handle holding the SDK's result, one more log
    entry, the old store untouched. *)
Lemma apply_step (c : QueryConstraint) (q : Query) (w : World QueryData) (d d' : QueryData) :
  heap w !! q = Some d ->
  sdk_method (type c) (_args c) d = Some d' ->
  _apply sdk_method c q w
  = Some (List.length (heap w), mkWorld (heap w ++ [d']) (applied w ++ [(c, q)])).
Proof.
  intros Hq Hsdk. unfold _apply. rewrite Hq, Hsdk. reflexivity.
Qed.

(** Whatever [query] returns, its log grew by the given constraints, in
    order, one entry each. *)
Lemma query_applied (cs : list QueryConstraint) :
  forall (base : Query) (w : World QueryData) (q' : Query) (w' : World QueryData),
    query sdk_method base cs w = Some (q', w') ->
    exists new, applied w' = applied w ++ new /\ List.map fst new = cs.
Proof.
  induction cs as [|c cs IH]; intros base w q' w'.
  - intros [= _ <-]. exists []. split; [symmetry; apply app_nil_r|reflexivity].
  - cbn [query].
    destruct (_apply sdk_method c base w) as [[q1 w1]|] eqn:Hstep; [|discriminate].
    intros Hrest. destruct (IH _ _ _ _ Hrest) as (new & Hlog & Hmap).
    unfold _apply in Hstep.
    destruct (heap w !! base) as [d|]; [|discriminate].
    destruct (sdk_method (type c) (_args c) d) as [d'|]; [|discriminate].
    injection Hstep as _ <-. cbn [applied] in Hlog.
    exists ((c, base) :: new). split.
    + rewrite Hlog, <- app_assoc. reflexivity.
    + cbn. rewrite Hmap. reflexivity.
Qed.

(** A run of [query] over a valid base whose constraints the SDK
    accepts. *)
Lemma query_run (cs : list QueryConstraint) :
  forall (base : Query) (w : World QueryData) (d0 d : QueryData),
    heap w !! base = Some d0 ->
    sdk_chain sdk_method d0 cs = Some d ->
    exists q' w',
      query sdk_method base cs w = Some (q', w')
      /\ heap w' !! q' = Some d
      /\ q' = match cs with
              | [] => base
              | _ => List.length (heap w) + List.length cs - 1
              end
      /\ applied w'
         = applied w
           ++ zip cs (take (List.length cs)
                        (base :: seq (List.length (heap w)) (List.length cs)))
      /\ List.length (heap w') = List.length (heap w) + List.length cs
      /\ (forall h x, heap w !! h = Some x -> heap w' !! h = Some x).
Proof.
  induction cs as [|c cs IH]; intros base w d0 d Hbase Hchain.
  - injection Hchain as <-. exists base, w. cbn.
    rewrite app_nil_r, Nat.add_0_r. repeat split; auto.
  - cbn [sdk_chain] in Hchain.
    destruct (sdk_method (type c) (_args c) d0) as [d1|] eqn:Hsdk; [|discriminate].
    set (w1 := mkWorld (heap w ++ [d1]) (applied w ++ [(c, base)])).
    assert (Hfresh : heap w1 !! List.length (heap w) = Some d1)
      by (apply list_lookup_middle; reflexivity).
    destruct (IH _ w1 d1 d Hfresh Hchain) as (q' & w' & Hq & Hd & Hq' & Hlog & Hlen & Hold).
    exists q', w'.
    assert (Hlen1 : List.length (heap w1) = S (List.length (heap w))).
    { cbn [heap w1]. rewrite length_app. cbn. lia. }
    cbn [query]. rewrite (apply_step _ _ _ _ _ Hbase Hsdk).
    fold w1. split; [exact Hq|]. split; [exact Hd|].
    split; [|split; [|split]].
    + rewrite Hq', Hlen1. destruct cs; cbn [List.length]; lia.

    + rewrite Hlog, Hlen1. cbn [applied w1 List.length seq take zip zip_with].
      rewrite <- app_assoc. reflexivity.
    + rewrite Hlen, Hlen1. cbn [List.length]. lia.
    + intros h x Hh. apply Hold. cbn [heap w1].
      rewrite lookup_app_l by (eapply lookup_lt_Some; exact Hh). exact Hh.
Qed.

Lemma query_rejected (cs : list QueryConstraint) :
  forall (base : Query) (w : World QueryData) (d0 : QueryData),
    heap w !! base = Some d0 ->
    sdk_chain sdk_method d0 cs = None ->
    query sdk_method base cs w = None.
Proof.
  induction cs as [|c cs IH]; intros base w d0 Hbase Hchain; [discriminate|].
  cbn [sdk_chain] in Hchain. cbn [query].
  destruct (sdk_method (type c) (_args c) d0) as [d1|] eqn:Hsdk.
  - rewrite (apply_step _ _ _ _ _ Hbase Hsdk).
    apply (IH _ _ d1); [apply list_lookup_middle; reflexivity|exact Hchain].
  - unfold _apply. rewrite Hbase, Hsdk. reflexivity.
Qed.

End ConstraintApplierFacts.

Example query_age_example :
  query recording_sdk 0 age_query (mkWorld [[]] [])
  = Some (3, mkWorld [[]; ["where"]; ["where"; "orderBy"]; ["where"; "orderBy"; "limit"]]
               (zip age_query [0; 1; 2])).
Proof. reflexivity. Qed.

Example query_two_limits_rejected :
  query recording_sdk 0 [limit (JsNumber 1%float); limit (JsNumber 2%float)]
    (mkWorld [[]] [])
  = None.
Proof. reflexivity. Qed.

(** C5: [query(baseQuery, c1, ..., cN)] is the left-to-right fold
    [cN._apply(... c1._apply(baseQuery) ...)].  On a valid base query and
    constraints the SDK accepts it returns; each constraint's [_apply] is
    invoked exactly once, in the order given, the first on the base query
    and every later one on the query the previous step returned; each
    step yields a new query value, and no query that existed before, the
    base query included, is changed. *)
Theorem query_is_left_fold_of_apply
  (QueryData : Type)
  (sdk_method : QueryConstraintType -> list JsValue -> QueryData -> option QueryData)
  (base : Query) (cs : list QueryConstraint) (w : World QueryData) (d0 d : QueryData) :
  heap w !! base = Some d0 ->
  sdk_chain sdk_method d0 cs = Some d ->
  query sdk_method base cs w = apply_fold sdk_method base cs w
  /\ exists q' w',
       query sdk_method base cs w = Some (q', w')
       /\ heap w' !! q' = Some d
       /\ q' = match cs with
               | [] => base
               | _ => List.length (heap w) + List.length cs - 1
               end
       /\ applied w'
          = applied w
            ++ zip cs (take (List.length cs)
                         (base :: seq (List.length (heap w)) (List.length cs)))
       /\ List.length (heap w') = List.length (heap w) + List.length cs
       /\ (forall h x, heap w !! h = Some x -> heap w' !! h = Some x).
Proof.
  intros Hbase Hchain. split.
  - apply query_apply_fold.
  - exact (query_run sdk_method cs base w d0 d Hbase Hchain).
Qed.

Lemma query_is_left_fold_of_apply_witness :
  (mkWorld [[]] [] : World (list string)).(heap) !! 0 = Some []
  /\ sdk_chain recording_sdk [] age_query = Some ["where"; "orderBy"; "limit"]
  /\ query recording_sdk 0 age_query (mkWorld [[]] [])
     = apply_fold recording_sdk 0 age_query (mkWorld [[]] []).
Proof.
  assert (H0 : (mkWorld [[]] [] : World (list string)).(heap) !! 0 = Some [])
    by reflexivity.
  assert (H1 : sdk_chain recording_sdk [] age_query
               = Some ["where"; "orderBy"; "limit"]) by reflexivity.
  split; [exact H0|]. split; [exact H1|].
  exact (proj1 (query_is_left_fold_of_apply (list string) recording_sdk 0 age_query
                  (mkWorld [[]] []) [] ["where"; "orderBy"; "limit"] H0 H1)).
Defined.


(** ** Realtime Database surface *)

Example v8_throws_if_onComplete_is_not_a_function :
  test_throws_if_onComplete_is_not_a_function (onDisconnect_remove 5) = true.
Proof. reflexivity. Qed.

Example modular_throws_if_onComplete_is_not_a_function :
  test_throws_if_onComplete_is_not_a_function (modular_onDisconnect_remove 5) = true.
Proof. reflexivity. Qed.

Example remove_without_callback :
  call_remove 5 [] = Delegates (native_onDisconnectRemove 5 JsUndefined).
Proof. reflexivity. Qed.

Example remove_null_callback :
  call_remove 5 [JsNull] = Throws (InvalidArgument onComplete_message).
Proof. reflexivity. Qed.

(** C8: [onDisconnect(ref).remove(onComplete)] raises, before anything
    is handed on, exactly when [onComplete] is provided and is not a
    function; the message of the error then contains
    ['onComplete' must be a function if provided]; an omitted or callable
    [onComplete] raises nothing; the namespaced and the modular form
    agree. *)
Theorem remove_throws_iff_onComplete_not_function
  (reference : Wrapped) (onComplete : JsValue) :
  ((exists e, onDisconnect_remove reference onComplete = Throws e)
   <-> isUndefined onComplete = false /\ isFunction onComplete = false)
  /\ (forall e, onDisconnect_remove reference onComplete = Throws e ->
        includes "'onComplete' must be a function if provided" (message_of e) = true
        /\ calls_made (onDisconnect_remove reference onComplete) = [])
  /\ (isUndefined onComplete = true \/ isFunction onComplete = true ->
        onDisconnect_remove reference onComplete
        = Delegates (native_onDisconnectRemove reference onComplete))
  /\ modular_onDisconnect_remove reference onComplete
     = onDisconnect_remove reference onComplete.
Proof.
  unfold modular_onDisconnect_remove, onDisconnect_remove.
  destruct (isUndefined onComplete), (isFunction onComplete); cbn [negb andb];
    (split; [split; [intros [e He]; first [discriminate He | tauto]
                    | intros [? ?]; first [discriminate | eauto]]
            |split; [intros e He; first [discriminate He | injection He as <-; split; reflexivity]
                    |split; [intros [?|?]; first [discriminate | reflexivity]
                            |reflexivity]]]).
Qed.

Lemma remove_throws_iff_onComplete_not_function_witness :
  (isUndefined (JsString "foo") = false /\ isFunction (JsString "foo") = false)
  /\ exists e, onDisconnect_remove 5 (JsString "foo") = Throws e.
Proof.
  assert (H : isUndefined (JsString "foo") = false /\ isFunction (JsString "foo") = false)
    by (split; reflexivity).
  split; [exact H|].
  exact (proj2 (proj1 (remove_throws_iff_onComplete_not_function 5 (JsString "foo"))) H).
Defined.

Example path_segments_foo_bar_baz : path_segments "/foo/bar/baz" = ["foo"; "bar"; "baz"].
Proof. reflexivity. Qed.

Example v8_parent_of_root : parent (database_ref None) = None.
Proof. reflexivity. Qed.

Example v8_parent_of_foo : parent (database_ref (Some "/foo")) = None.
Proof. reflexivity. Qed.

Example v8_parent_key_of_foo_bar_baz :
  option_map key (parent (database_ref (Some "/foo/bar/baz"))) = Some (Some "bar").
Proof. reflexivity. Qed.

Example modular_parent_key_of_foo_bar_baz :
  option_map key (parent (modular_ref (Some "/foo/bar/baz"))) = Some (Some "bar").
Proof. reflexivity. Qed.

Lemma key_of_removelast (segs : list string) :
  2 <= List.length segs ->
  List.last (List.map Some (List.removelast segs)) None = segs !! (List.length segs - 2).
Proof.
  intros Hlen.
  destruct segs as [|z segs _] using rev_ind; [cbn in Hlen; lia|].
  destruct segs as [|y segs _] using rev_ind; [cbn in Hlen; lia|].
  rewrite List.removelast_last, List.map_app. cbn [List.map].
  rewrite List.last_last, !length_app. cbn [List.length].
  replace (List.length segs + 1 + 1 - 2) with (List.length segs) by lia.
  rewrite <- app_assoc. cbn [app].
  symmetry. apply list_lookup_middle. reflexivity.
Qed.

(** C9: a reference whose path has at least two segments has a parent,
    the reference one segment up, and the parent's key is the
    second-to-last segment of the path; the root and a reference with a
    single segment have the parent [null]; the namespaced and the modular
    [ref] give the same. *)
Theorem parent_key_is_second_to_last_segment (r : DatabaseReference) :
  (2 <= List.length (ref_segments r) ->
   exists p, parent r = Some p
             /\ ref_segments p = List.removelast (ref_segments r)
             /\ key p = ref_segments r !! (List.length (ref_segments r) - 2))
  /\ (List.length (ref_segments r) <= 1 -> parent r = None)
  /\ (forall path, parent (modular_ref path) = parent (database_ref path)).
Proof.
  split; [|split].
  - intros Hlen. exists (mkReference (List.removelast (ref_segments r))).
    split; [|split].
    + unfold parent. destruct (ref_segments r) as [|a [|b l]]; cbn in Hlen; try lia.
      reflexivity.
    + reflexivity.
    + unfold key. cbn [ref_segments]. apply key_of_removelast, Hlen.
  - intros Hlen. unfold parent.
    destruct (ref_segments r) as [|a [|b l]]; cbn in Hlen; try lia; reflexivity.
  - reflexivity.
Qed.

Lemma parent_key_is_second_to_last_segment_witness :
  2 <= List.length (ref_segments (database_ref (Some "/foo/bar/baz")))
  /\ exists p, parent (database_ref (Some "/foo/bar/baz")) = Some p
               /\ ref_segments p
                  = List.removelast (ref_segments (database_ref (Some "/foo/bar/baz")))
               /\ key p = ref_segments (database_ref (Some "/foo/bar/baz"))
                          !! (List.length (ref_segments (database_ref (Some "/foo/bar/baz"))) - 2).
Proof.
  assert (H : 2 <= List.length (ref_segments (database_ref (Some "/foo/bar/baz"))))
    by (vm_compute; lia).
  split; [exact H|].
  exact (proj1 (parent_key_is_second_to_last_segment (database_ref (Some "/foo/bar/baz"))) H).
Defined.

(** * Further properties of the path resolver and of [updateDoc] *)

(** ** Strings *)

Lemma string_append_assoc (a b c : string) : (a +:+ b) +:+ c = a +:+ b +:+ c.
Proof.
  induction a as [|x a IH]; [reflexivity|].
  change (String x ((a +:+ b) +:+ c) = String x (a +:+ b +:+ c)).
  f_equal. exact IH.
Qed.

Lemma string_length_append (a b : string) :
  String.length (a +:+ b) = String.length a + String.length b.
Proof.
  induction a as [|x a IH]; [reflexivity|].
  change (S (String.length (a +:+ b)) = S (String.length a + String.length b)).
  f_equal. exact IH.
Qed.

Lemma concat_cons_cons (sep x y : string) (l : list string) :
  String.concat sep (x :: y :: l) = x +:+ sep +:+ String.concat sep (y :: l).
Proof. reflexivity. Qed.

(** [join] of two non-empty arrays laid end to end. *)
Lemma concat_app (sep : string) (l1 l2 : list string) :
  l1 <> [] -> l2 <> [] ->
  String.concat sep (l1 ++ l2) = String.concat sep l1 +:+ sep +:+ String.concat sep l2.
Proof.
  intros H1 H2. destruct l2 as [|y l2]; [contradiction|]. clear H2.
  induction l1 as [|x l1 IH]; [contradiction|]. clear H1.
  destruct l1 as [|x' l1].
  - reflexivity.
  - change ((x :: x' :: l1) ++ y :: l2) with (x :: x' :: (l1 ++ y :: l2)).
    rewrite !concat_cons_cons.
    change (x' :: l1 ++ y :: l2) with ((x' :: l1) ++ y :: l2).
    rewrite IH by discriminate.
    rewrite !string_append_assoc. reflexivity.
Qed.

(** ** What the replacement leaves of a segment *)

Lemma strip_trailing_length (s : string) :
  String.length (strip_trailing s) + (if ends_with_slash s then 1 else 0) = String.length s.
Proof.
  induction s as [|c rest IH]; [reflexivity|].
  destruct rest as [|c' rest'].
  - cbn. destruct (is_slash c); reflexivity.
  - rewrite strip_trailing_cons.
    change (ends_with_slash (String c (String c' rest')))
      with (ends_with_slash (String c' rest')).
    cbn [String.length] in *. lia.
Qed.

Lemma strip_leading_length (s : string) :
  String.length (strip_leading s) + (if starts_with_slash s then 1 else 0) = String.length s.
Proof.
  destruct s as [|c rest]; [reflexivity|].
  cbn. destruct (is_slash c); cbn; lia.
Qed.

Lemma strip_trailing_no_slash (s : string) :
  ends_with_slash s = false -> strip_trailing s = s.
Proof.
  induction s as [|c rest IH]; [reflexivity|].
  destruct rest as [|c' rest'].
  - cbn. intros ->. reflexivity.
  - change (ends_with_slash (String c (String c' rest')))
      with (ends_with_slash (String c' rest')).
    intros H. rewrite strip_trailing_cons, (IH H). reflexivity.
Qed.

Lemma trimSlashes_length (s : string) :
  String.length (trimSlashes s)
  + (if starts_with_slash s then 1 else 0)
  + (if ends_with_slash (strip_leading s) then 1 else 0)
  = String.length s.
Proof.
  rewrite trimSlashes_spec_trim. unfold spec_trim.
  pose proof (strip_trailing_length (strip_leading s)).
  pose proof (strip_leading_length s). lia.
Qed.

(** X1: a segment is returned unchanged by the replacement exactly when
    it neither starts nor ends with a slash. *)
Theorem trimSlashes_fixed_point_iff (s : string) :
  trimSlashes s = s <-> starts_with_slash s = false /\ ends_with_slash s = false.
Proof.
  split.
  - intros Hfix. pose proof (trimSlashes_length s) as Hlen. rewrite Hfix in Hlen.
    destruct (starts_with_slash s) eqn:Hstart; [lia|].
    assert (Hlead : strip_leading s = s).
    { destruct s as [|c rest]; [reflexivity|]. cbn in Hstart |- *. rewrite Hstart. reflexivity. }
    rewrite Hlead in Hlen.
    destruct (ends_with_slash s); [lia|]. split; reflexivity.
  - intros [Hstart Hend]. rewrite trimSlashes_spec_trim. unfold spec_trim.
    assert (Hlead : strip_leading s = s).
    { destruct s as [|c rest]; [reflexivity|]. cbn in Hstart |- *. rewrite Hstart. reflexivity. }
    rewrite Hlead. apply strip_trailing_no_slash, Hend.
Qed.

(** X2: the replacement never lengthens a segment and removes at most
    two characters; a segment that starts with a slash gets shorter. *)
Theorem trimSlashes_length_bounds (s : string) :
  String.length (trimSlashes s) <= String.length s
  /\ String.length s <= String.length (trimSlashes s) + 2
  /\ (starts_with_slash s = true -> String.length (trimSlashes s) < String.length s).
Proof.
  pose proof (trimSlashes_length s) as Hlen.
  destruct (starts_with_slash s), (ends_with_slash (strip_leading s));
    repeat split; intros; try discriminate; lia.
Qed.

Lemma trimSlashes_length_bounds_witness :
  starts_with_slash "//a" = true
  /\ String.length (trimSlashes "//a") < String.length "//a".
Proof.
  assert (H : starts_with_slash "//a" = true) by reflexivity.
  split; [exact H|].
  exact (proj2 (proj2 (trimSlashes_length_bounds "//a")) H).
Defined.

(** ** Errors of the path resolver *)

Lemma map_segments_error_iff (segs : list MaybeString) :
  (exists e, map_segments segs = inl e) <-> forallb is_string segs = false.
Proof.
  induction segs as [|s segs IH].
  - split; [intros [e He]; discriminate He|discriminate].
  - cbn [map_segments forallb]. destruct s; cbn [trim_segment is_string andb].
    + split; eauto.
    + split; eauto.
    + rewrite <- IH. destruct (map_segments segs) as [e|ss].
      * split; eauto.
      * split; intros [e He]; discriminate He.
Qed.

(** X3: [doc] and [collection] throw exactly when one of the extra
    segments is not a string ([null] or [undefined]); the base path plays
    no part in it, and a throwing call makes no call on the parent. *)
Theorem doc_collection_throw_iff_non_string_segment
  (parent : Wrapped) (path : MaybeString) (segs : list MaybeString) :
  ((exists e, doc parent path segs = Throws e) <-> forallb is_string segs = false)
  /\ ((exists e, collection parent path segs = Throws e) <-> forallb is_string segs = false)
  /\ (forallb is_string segs = false ->
        calls_made (doc parent path segs) = []
        /\ calls_made (collection parent path segs) = []).
Proof.
  assert (Hjoin : (exists e, join_path path segs = inl e) <-> forallb is_string segs = false).
  { rewrite <- map_segments_error_iff. unfold join_path.
    destruct segs as [|s segs].
    - cbn. split; intros [e He]; discriminate He.
    - cbn [List.length Nat.eqb negb].
      destruct (map_segments (s :: segs)) as [e|ss].
      + split; eauto.
      + split; intros [e He]; discriminate He. }
  unfold doc, collection.
  destruct (join_path path segs) as [err|p].
  - assert (Hfalse : forallb is_string segs = false) by (apply Hjoin; eauto).
    split; [split; eauto|]. split; [split; eauto|]. intros _. split; reflexivity.
  - assert (Htrue : forallb is_string segs <> false).
    { intros Hfalse. apply Hjoin in Hfalse as [e He]. discriminate He. }
    split; [split; [intros [e He]; discriminate He|intros H; contradiction]|].
    split; [split; [intros [e He]; discriminate He|intros H; contradiction]|].
    intros H. contradiction.
Qed.

Lemma doc_collection_throw_iff_non_string_segment_witness :
  forallb is_string [Str "a"; Null; Str "b"] = false
  /\ exists e, doc 7 (Str "users") [Str "a"; Null; Str "b"] = Throws e.
Proof.
  assert (H : forallb is_string [Str "a"; Null; Str "b"] = false) by reflexivity.
  split; [exact H|].
  exact (proj2 (proj1 (doc_collection_throw_iff_non_string_segment
                         7 (Str "users") [Str "a"; Null; Str "b"])) H).
Defined.

(** ** Composing paths in steps *)

(** X4: composing a path in two calls gives the path of one call: the
    path [doc] composes from a first, non-empty group of string segments
    can be used as the base path for the remaining segments, and the
    parent then receives the same path as when all segments are given at
    once.  The same holds for [collection]. *)
Theorem doc_collection_compose_in_two_steps
  (parent : Wrapped) (path : MaybeString) (segs1 segs2 : list string) :
  segs1 <> [] ->
  let composed :=
    toString path +:+ "/" +:+ String.concat "/" (List.map trimSlashes segs1) in
  doc parent path (List.map Str segs1) = Delegates (parent_doc parent (Str composed))
  /\ doc parent (Str composed) (List.map Str segs2)
     = doc parent path (List.map Str (segs1 ++ segs2))
  /\ collection parent (Str composed) (List.map Str segs2)
     = collection parent path (List.map Str (segs1 ++ segs2))
  /\ collection parent path (List.map Str segs1)
     = Delegates (parent_collection parent (Str composed)).
Proof.
  intros Hne composed.
  assert (Hjoin : join_path (Str composed) (List.map Str segs2)
                  = join_path path (List.map Str (segs1 ++ segs2))).
  { destruct segs2 as [|s segs2].
    - rewrite app_nil_r, (join_path_strings path segs1 Hne). reflexivity.
    - rewrite (join_path_strings (Str composed) (s :: segs2)) by discriminate.
      rewrite (join_path_strings path (segs1 ++ s :: segs2))
        by (destruct segs1; [contradiction|discriminate]).
      rewrite List.map_app, concat_app;
        [|destruct segs1; [contradiction|discriminate]|discriminate].
      unfold composed. cbn [toString].
      rewrite !string_append_assoc. reflexivity. }
  unfold doc, collection. rewrite Hjoin.
  rewrite (join_path_strings path segs1 Hne). repeat split.
Qed.

Lemma doc_collection_compose_in_two_steps_witness :
  ["/users/"; "alice"] <> []
  /\ doc 7 (Str "app/users/alice") [Str "posts"; Str "/p1"]
     = doc 7 (Str "app") [Str "/users/"; Str "alice"; Str "posts"; Str "/p1"].
Proof.
  assert (Hne : ["/users/"; "alice"] <> []) by discriminate.
  split; [exact Hne|].
  exact (proj1 (proj2 (doc_collection_compose_in_two_steps
                         7 (Str "app") ["/users/"; "alice"] ["posts"; "/p1"] Hne))).
Defined.

(** ** Splitting a composed path *)

Lemma split_slash_slash_free (s : string) :
  slash_free s = true -> split_slash s = [s].
Proof.
  induction s as [|c rest IH]; [reflexivity|].
  cbn [slash_free split_slash]. intros [Hc Hrest]%andb_true_iff.
  apply negb_true_iff in Hc. rewrite Hc, (IH Hrest). reflexivity.
Qed.

Lemma split_slash_append (s t : string) :
  slash_free s = true -> split_slash (s +:+ "/" +:+ t) = s :: split_slash t.
Proof.
  induction s as [|c rest IH]; [reflexivity|].
  cbn [slash_free]. intros [Hc Hrest]%andb_true_iff.
  apply negb_true_iff in Hc.
  change (String c rest +:+ "/" +:+ t) with (String c (rest +:+ "/" +:+ t)).
  cbn [split_slash]. rewrite Hc, (IH Hrest). reflexivity.
Qed.

Lemma split_slash_concat (segs : list string) :
  forall first, forallb slash_free (first :: segs) = true ->
                split_slash (String.concat "/" (first :: segs)) = first :: segs.
Proof.
  induction segs as [|s segs IH]; intros first; cbn [forallb].
  - intros [Hfirst _]%andb_true_iff. apply split_slash_slash_free, Hfirst.
  - intros [Hfirst Hrest]%andb_true_iff.
    rewrite concat_cons_cons, (split_slash_append _ _ Hfirst), (IH s Hrest).
    reflexivity.
Qed.

(** X5: for a slash-free base path and slash-free segments, the path
    handed to [parent.doc] / [parent.collection] splits at its slashes
    into exactly the base path followed by the segments, in call order:
    nothing is merged, dropped or reordered. *)
Theorem doc_collection_path_splits_into_segments
  (parent : Wrapped) (base : string) (segs : list string) :
  forallb slash_free (base :: segs) = true ->
  exists p,
    doc parent (Str base) (List.map Str segs) = Delegates (parent_doc parent (Str p))
    /\ collection parent (Str base) (List.map Str segs)
       = Delegates (parent_collection parent (Str p))
    /\ split_slash p = base :: segs.
Proof.
  intros Hfree. exists (String.concat "/" (base :: segs)).
  split; [|split].
  3: apply split_slash_concat, Hfree.
  all: cbn [forallb] in Hfree; apply andb_true_iff in Hfree as [_ Hsegs];
    destruct segs as [|s segs]; [reflexivity|];
    unfold doc, collection; rewrite join_path_strings by discriminate;
    rewrite (map_trimSlashes_slash_free _ Hsegs); reflexivity.
Qed.

Lemma doc_collection_path_splits_into_segments_witness :
  forallb slash_free ["users"; "alice"; ""; "posts"] = true
  /\ exists p,
       doc 7 (Str "users") [Str "alice"; Str ""; Str "posts"]
       = Delegates (parent_doc 7 (Str p))
       /\ collection 7 (Str "users") [Str "alice"; Str ""; Str "posts"]
          = Delegates (parent_collection 7 (Str p))
       /\ split_slash p = ["users"; "alice"; ""; "posts"].
Proof.
  assert (H : forallb slash_free ["users"; "alice"; ""; "posts"] = true) by reflexivity.
  split; [exact H|].
  exact (doc_collection_path_splits_into_segments 7 "users" ["alice"; ""; "posts"] H).
Defined.

(** ** [updateDoc] as a pass-through *)

(** X6: [updateDoc(reference, ...args)] hands [reference.update] the
    caller's argument list unchanged exactly when the second argument is
    truthy or there is exactly one argument; in every other case (no
    argument at all, or a falsy second argument) [update] receives a
    different list. *)
Theorem call_updateDoc_pass_through_iff (reference : Wrapped) (args : list JsValue) :
  call_updateDoc reference args = Delegates (reference_update reference args)
  <-> truthy (List.nth 1 args JsUndefined) = true \/ List.length args = 1.
Proof.
  unfold call_updateDoc, updateDoc, updateDoc_return.
  destruct args as [|f [|v more]]; cbn [List.nth List.skipn List.length truthy negb].
  - split; [discriminate|intros [H|H]; discriminate H].
  - split; [right; reflexivity|reflexivity].
  - destruct (truthy v); cbn [negb orb Array_isArray truthy].
    + split; [left; reflexivity|reflexivity].
    + split; [discriminate|intros [H|H]; discriminate H].
Qed.

Lemma call_updateDoc_pass_through_iff_witness :
  (truthy (List.nth 1 [JsString "a"; JsNumber 1%float; JsString "b"; JsNumber 0%float]
             JsUndefined) = true
   \/ List.length [JsString "a"; JsNumber 1%float; JsString "b"; JsNumber 0%float] = 1)
  /\ call_updateDoc 3 [JsString "a"; JsNumber 1%float; JsString "b"; JsNumber 0%float]
     = Delegates (reference_update 3
         [JsString "a"; JsNumber 1%float; JsString "b"; JsNumber 0%float]).
Proof.
  assert (H : truthy (List.nth 1 [JsString "a"; JsNumber 1%float; JsString "b";
                                  JsNumber 0%float] JsUndefined) = true
              \/ List.length [JsString "a"; JsNumber 1%float; JsString "b";
                              JsNumber 0%float] = 1)
    by (left; reflexivity).
  split; [exact H|].
  exact (proj2 (call_updateDoc_pass_through_iff 3
                  [JsString "a"; JsNumber 1%float; JsString "b"; JsNumber 0%float]) H).
Defined.

(** ** What the test of [remove] accepts *)

Lemma prefix_append (needle rest : string) : String.prefix needle (needle +:+ rest) = true.
Proof.
  induction needle as [|c needle IH]; [destruct rest; reflexivity|].
  change (String c needle +:+ rest) with (String c (needle +:+ rest)).
  cbn [String.prefix]. destruct (ascii_dec c c); [exact IH|contradiction].
Qed.

Lemma prefix_true (needle haystack : string) :
  String.prefix needle haystack = true -> exists rest, haystack = needle +:+ rest.
Proof.
  revert haystack. induction needle as [|c needle IH]; intros haystack.
  - exists haystack. reflexivity.
  - destruct haystack as [|c' haystack]; [discriminate|].
    cbn [String.prefix]. destruct (ascii_dec c c') as [<-|]; [|discriminate].
    intros [rest ->]%IH. exists rest. reflexivity.
Qed.

Lemma includes_unfold (needle haystack : string) :
  includes needle haystack
  = String.prefix needle haystack
    || match haystack with
       | EmptyString => false
       | String _ rest => includes needle rest
       end.
Proof. destruct haystack; reflexivity. Qed.

(** [includes] finds the needle exactly when the haystack contains it. *)
Lemma includes_iff (needle haystack : string) :
  includes needle haystack = true
  <-> exists before after, haystack = before +:+ needle +:+ after.
Proof.
  split.
  - induction haystack as [|c haystack IH]; rewrite includes_unfold.
    + rewrite orb_false_r. intros [rest ->]%prefix_true. exists "", rest. reflexivity.
    + intros [Hp|Hrec]%orb_true_iff.
      * apply prefix_true in Hp as [rest ->]. exists "", rest. reflexivity.
      * destruct (IH Hrec) as (before & after & ->).
        exists (String c before), after. reflexivity.
  - intros (before & after & ->).
    induction before as [|c before IH].
    + change ("" +:+ needle +:+ after) with (needle +:+ after).
      rewrite includes_unfold, prefix_append. reflexivity.
    + change (String c before +:+ needle +:+ after)
        with (String c (before +:+ needle +:+ after)).
      rewrite includes_unfold. cbv iota beta.
      rewrite IH. apply orb_true_r.
Qed.

(** X7: the test "throws if onComplete is not a function" resolves for
    an implementation of [remove] exactly when [remove('foo')] throws an
    error whose message contains the expected text, whatever precedes or
    follows it; an implementation that throws nothing, or throws with a
    message lacking the text, makes the test reject. *)
Theorem test_throws_accepts_iff (remove : JsValue -> Action) :
  test_throws_if_onComplete_is_not_a_function remove = true
  <-> exists e before after,
        remove (JsString "foo") = Throws e
        /\ message_of e
           = before +:+ "'onComplete' must be a function if provided" +:+ after.
Proof.
  unfold test_throws_if_onComplete_is_not_a_function, onComplete_message.
  destruct (remove (JsString "foo")) as [e|c].
  - rewrite includes_iff. split.
    + intros (before & after & Hm). exists e, before, after. split; [reflexivity|exact Hm].
    + intros (e' & before & after & [= <-] & Hm). exists before, after. exact Hm.
  - split; [discriminate|]. intros (e & before & after & He & _). discriminate He.
Qed.

(** ** A base path that ends in a slash *)

Lemma ends_with_slash_snoc (s : string) :
  ends_with_slash s = true -> exists b, s = b +:+ "/".
Proof.
  induction s as [|c rest IH]; [discriminate|].
  destruct rest as [|c' rest'].
  - cbn. unfold is_slash. intros ->%Ascii.eqb_eq. exists "". reflexivity.
  - change (ends_with_slash (String c (String c' rest')))
      with (ends_with_slash (String c' rest')).
    intros [b Hb]%IH. rewrite Hb. exists (String c b). reflexivity.
Qed.

(** X8: the base path is joined as it is, so a base path that ends in a
    slash always leaves a doubled slash in the path handed to
    [parent.doc] / [parent.collection], whatever the (string) segments
    are. *)
Theorem doc_collection_base_trailing_slash_doubles
  (parent : Wrapped) (base : string) (segs : list string) :
  ends_with_slash base = true ->
  segs <> [] ->
  exists p,
    doc parent (Str base) (List.map Str segs) = Delegates (parent_doc parent (Str p))
    /\ collection parent (Str base) (List.map Str segs)
       = Delegates (parent_collection parent (Str p))
    /\ includes "//" p = true.
Proof.
  intros [b ->]%ends_with_slash_snoc Hne.
  eexists. unfold doc, collection.
  rewrite (join_path_strings _ _ Hne). split; [reflexivity|]. split; [reflexivity|].
  apply includes_iff.
  exists b, (String.concat "/" (List.map trimSlashes segs)).
  cbn [toString]. rewrite string_append_assoc. reflexivity.
Qed.

Lemma doc_collection_base_trailing_slash_doubles_witness :
  ends_with_slash "users/" = true
  /\ ["alice"] <> []
  /\ exists p,
       doc 7 (Str "users/") [Str "alice"] = Delegates (parent_doc 7 (Str p))
       /\ collection 7 (Str "users/") [Str "alice"]
          = Delegates (parent_collection 7 (Str p))
       /\ includes "//" p = true.
Proof.
  assert (H : ends_with_slash "users/" = true) by reflexivity.
  assert (Hne : ["alice"] <> []) by discriminate.
  split; [exact H|]. split; [exact Hne|].
  exact (doc_collection_base_trailing_slash_doubles 7 "users/" ["alice"] H Hne).
Defined.

(** ** [getFirestore] *)

Example getFirestore_without_app : getFirestore JsUndefined = firebase_firestore [].
Proof. reflexivity. Qed.

Example getFirestore_with_app : getFirestore (JsObject 1) = firebase_firestore [JsObject 1].
Proof. reflexivity. Qed.

(** X9: [getFirestore(app)] asks [firebase.firestore] for the default
    instance, passing no argument, exactly when [app] is falsy, and
    passes [app] on exactly when it is truthy: a falsy [app] ([null],
    [0], ['']) behaves as an omitted one and is never forwarded. *)
Theorem getFirestore_forwards_app_iff_truthy (app : JsValue) :
  (getFirestore app = firebase_firestore [] <-> truthy app = false)
  /\ (getFirestore app = firebase_firestore [app] <-> truthy app = true)
  /\ (forall args, getFirestore app = firebase_firestore args ->
        forallb truthy args = true).
Proof.
  unfold getFirestore. destruct (truthy app) eqn:Happ.
  - split; [split; discriminate|]. split; [split; reflexivity|].
    intros args [= <-]. cbn. rewrite Happ. reflexivity.
  - split; [split; reflexivity|]. split; [split; discriminate|].
    intros args [= <-]. reflexivity.
Qed.

Lemma getFirestore_forwards_app_iff_truthy_witness :
  truthy (JsString "") = false /\ getFirestore (JsString "") = firebase_firestore [].
Proof.
  assert (H : truthy (JsString "") = false) by reflexivity.
  split; [exact H|].
  exact (proj2 (proj1 (getFirestore_forwards_app_iff_truthy (JsString ""))) H).
Defined.

Lemma trimSlashes_fixed_point_iff_witness :
  (starts_with_slash "a//b" = false /\ ends_with_slash "a//b" = false)
  /\ trimSlashes "a//b" = "a//b".
Proof.
  assert (H : starts_with_slash "a//b" = false /\ ends_with_slash "a//b" = false)
    by (split; reflexivity).
  split; [exact H|].
  exact (proj2 (trimSlashes_fixed_point_iff "a//b") H).
Defined.

Lemma test_throws_accepts_iff_witness :
  (exists e before after,
     onDisconnect_remove 5 (JsString "foo") = Throws e
     /\ message_of e = before +:+ "'onComplete' must be a function if provided" +:+ after)
  /\ test_throws_if_onComplete_is_not_a_function (onDisconnect_remove 5) = true.
Proof.
  assert (H : exists e before after,
             onDisconnect_remove 5 (JsString "foo") = Throws e
             /\ message_of e
                = before +:+ "'onComplete' must be a function if provided" +:+ after).
  { exists (InvalidArgument onComplete_message), "", "". split; reflexivity. }
  split; [exact H|].
  exact (proj2 (test_throws_accepts_iff (onDisconnect_remove 5)) H).
Defined.
